(** * gmodx: the Lua embedding boundary declared in [src/gmodx/lua.h]

    The header fixes the integer constants every binding relies on (type
    tags, status codes, pseudo-indices, registry sentinels, the size of the
    short-source buffer), two macros ([lua_upvalueindex], [abs_index]) and
    the prototypes of the functions the game's Lua library exports.

    The constants and the macros are embedded from the header.  The
    functions the header only declares are modelled from the specification;
    each such definition says so. *)

From Stdlib Require Import ZArith Lia String Ascii.
From Stdlib Require Import Floats.SpecFloat.
From stdpp Require Import base option list gmap.

Open Scope Z_scope.

(** ** C [int]

    Every constant and every index of the header is a C [int], 32 bits wide on
    the platforms the game ships for.  Signed overflow is undefined in C, so an
    arithmetic operation has a result only when the exact value is
    representable. *)

Definition INT_MIN : Z := -2147483648.
Definition INT_MAX : Z := 2147483647.

Definition int_range (z : Z) : Prop := INT_MIN <= z <= INT_MAX.

Definition is_int (z : Z) : bool := (INT_MIN <=? z) && (z <=? INT_MAX).

Definition int_result (z : Z) : option Z := if is_int z then Some z else None.

Definition int_add (a b : Z) : option Z := int_result (a + b).
Definition int_sub (a b : Z) : option Z := int_result (a - b).

(** ** Constants (lua.h, lines 8-35 and 52) *)

Definition LUA_TNONE : Z := -1.
Definition LUA_TNIL : Z := 0.
Definition LUA_TBOOLEAN : Z := 1.
Definition LUA_TLIGHTUSERDATA : Z := 2.
Definition LUA_TNUMBER : Z := 3.
Definition LUA_TSTRING : Z := 4.
Definition LUA_TTABLE : Z := 5.
Definition LUA_TFUNCTION : Z := 6.
Definition LUA_TUSERDATA : Z := 7.
Definition LUA_TTHREAD : Z := 8.

Definition LUA_MULTRET : Z := -1.

Definition LUA_OK : Z := 0.
Definition LUA_YIELD : Z := 1.
Definition LUA_ERRRUN : Z := 2.
Definition LUA_ERRSYNTAX : Z := 3.
Definition LUA_ERRMEM : Z := 4.
Definition LUA_ERRERR : Z := 5.
(** [const int LUA_ERRFILE = LUA_ERRERR + 1;] the sum is representable, see
    [LUA_ERRFILE_no_overflow]. *)
Definition LUA_ERRFILE : Z := LUA_ERRERR + 1.

Definition LUA_REGISTRYINDEX : Z := -10000.
Definition LUA_ENVIRONINDEX : Z := -10001.
Definition LUA_GLOBALSINDEX : Z := -10002.

Definition LUA_NOREF : Z := -2.
Definition LUA_REFNIL : Z := -1.

Definition LUA_IDSIZE : Z := 128.

(** The type tags of actual values and the status codes, in the order the
    header lists them. *)
Definition type_tags : list Z :=
  [LUA_TNIL; LUA_TBOOLEAN; LUA_TLIGHTUSERDATA; LUA_TNUMBER; LUA_TSTRING;
   LUA_TTABLE; LUA_TFUNCTION; LUA_TUSERDATA; LUA_TTHREAD].

Definition status_codes : list Z :=
  [LUA_OK; LUA_YIELD; LUA_ERRRUN; LUA_ERRSYNTAX; LUA_ERRMEM; LUA_ERRERR;
   LUA_ERRFILE].

(** ** Macros (lua.h, lines 32 and 142-143) *)

(** [#define lua_upvalueindex(i) (LUA_GLOBALSINDEX - (i))] *)
Definition lua_upvalueindex (i : Z) : option Z := int_sub LUA_GLOBALSINDEX i.

(** [abs_index] calls [lua_gettop], which the header declares and the Lua
    library implements.  The macro is embedded over any provider of that
    function. *)
Class StackTop (State : Type) := lua_gettop : State -> Z.

(** [#define abs_index(L, i)
      ((i) > 0 || (i) <= LUA_REGISTRYINDEX ? (i) : lua_gettop(L) + (i) + 1)] *)
Definition abs_index `{StackTop State} (L : State) (i : Z) : option Z :=
  if (0 <? i) || (i <=? LUA_REGISTRYINDEX) then Some i
  else t ← int_add (lua_gettop L) i; int_add t 1.

(** The indices the header reserves: the three constants and the values of
    [lua_upvalueindex] at the upvalue numbers, which start at 1. *)
Inductive pseudo_index : Z -> Prop :=
| pseudo_registry : pseudo_index LUA_REGISTRYINDEX
| pseudo_environ : pseudo_index LUA_ENVIRONINDEX
| pseudo_globals : pseudo_index LUA_GLOBALSINDEX
| pseudo_upvalue (i p : Z) :
    1 <= i -> lua_upvalueindex i = Some p -> pseudo_index p.

(** A provider of [lua_gettop] that answers a given depth, to evaluate
    [abs_index] at concrete depths. *)
Definition depth_top : StackTop Z := fun top => top.

(** * The machine behind the prototypes

    The header declares the functions below and the game's Lua library
    implements them; the repository holds no body for them.  Their models
    follow the specification's description of the value stack, the protected
    call, the reference registry and the debug record. *)

(** ** Values and stacks *)

(** [typedef double lua_Number;] a binary64 datum. *)
Definition lua_Number : Type := spec_float.

(** Modelled from the spec: the value representation, which the header keeps
    behind the opaque [lua_State].  A Value is a tagged union over nil,
    boolean, number (double precision), string (an immutable byte sequence),
    table, function, userdata, thread and light userdata (a raw pointer).
    Tables, functions, userdata and threads are shared objects, known by
    their identity. *)
Inductive Value : Type :=
| VNil
| VBoolean (b : bool)
| VLightUserdata (p : Z)
| VNumber (n : lua_Number)
| VString (s : string)
| VTable (id : nat)
| VFunction (id : nat)
| VUserdata (id : nat)
| VThread (id : nat).

(** The tag of a value, among the header's type-tag constants. *)
Definition type_tag (v : Value) : Z :=
  match v with
  | VNil => LUA_TNIL
  | VBoolean _ => LUA_TBOOLEAN
  | VLightUserdata _ => LUA_TLIGHTUSERDATA
  | VNumber _ => LUA_TNUMBER
  | VString _ => LUA_TSTRING
  | VTable _ => LUA_TTABLE
  | VFunction _ => LUA_TFUNCTION
  | VUserdata _ => LUA_TUSERDATA
  | VThread _ => LUA_TTHREAD
  end.

(** Modelled from the spec: the stack a [lua_State *] gives access to, "an
    ordered, growable sequence of Values owned by exactly one State or
    Thread"; the bottom slot comes first. *)
Record lua_State : Type := { stack : list Value }.

(** Modelled from the spec: [int lua_gettop(lua_State *L)], "the count of
    live slots". *)
#[export] Instance vm_gettop : StackTop lua_State :=
  fun L => Z.of_nat (length (stack L)).

(** The value an index designates: index 1 is the bottom slot, -1 the top
    one (resolved by [abs_index]); no pseudo-index and no index outside
    [1 .. lua_gettop L] designates a slot. *)
Definition stack_slot (L : lua_State) (index : Z) : option Value :=
  a ← abs_index L index;
  if 1 <=? a then stack L !! Z.to_nat (a - 1) else None.

(** Modelled from the spec: the [lua_push*] family, each of which puts one
    value on top of the stack. *)
Definition lua_push (v : Value) (L : lua_State) : lua_State :=
  {| stack := stack L ++ [v] |}.

Definition lua_pushnil (L : lua_State) : lua_State := lua_push VNil L.
Definition lua_pushnumber (L : lua_State) (n : lua_Number) : lua_State :=
  lua_push (VNumber n) L.
Definition lua_pushlstring (L : lua_State) (s : string) (len : nat) : lua_State :=
  lua_push (VString (substring 0 len s)) L.
Definition lua_pushstring (L : lua_State) (s : string) : lua_State :=
  lua_push (VString s) L.
Definition lua_pushboolean (L : lua_State) (b : Z) : lua_State :=
  lua_push (VBoolean (negb (b =? 0))) L.
Definition lua_pushlightuserdata (L : lua_State) (p : Z) : lua_State :=
  lua_push (VLightUserdata p) L.

(** Modelled from the spec: [void lua_settop(lua_State *L, int index)],
    which "truncates (discarding values) or extends (filling with nil) to a
    requested depth".  A non-negative index is the depth itself; a negative
    one names the slot that becomes the top.  There is no result for a
    pseudo-index or for a depth below zero. *)
Definition lua_settop (L : lua_State) (index : Z) : option lua_State :=
  if 0 <=? index then Some {| stack := resize (Z.to_nat index) VNil (stack L) |}
  else
    a ← abs_index L index;
    if 0 <=? a then Some {| stack := take (Z.to_nat a) (stack L) |} else None.

(** ** Protected calls *)

(** Modelled from the spec: the faults a protected call reports, a status
    from RuntimeFault, OutOfMemory, SyntaxError (load-time only) and
    ErrorInErrorHandler, with the header's code of each. *)
Inductive ErrorKind : Type :=
| RuntimeFault
| OutOfMemory
| SyntaxError
| ErrorInErrorHandler.

Definition status_of (k : ErrorKind) : Z :=
  match k with
  | RuntimeFault => LUA_ERRRUN
  | OutOfMemory => LUA_ERRMEM
  | SyntaxError => LUA_ERRSYNTAX
  | ErrorInErrorHandler => LUA_ERRERR
  end.

(** What invoking a callable comes to: it returns its results, or it faults
    with a kind and a raw fault value. *)
Inductive Outcome : Type :=
| Returns (results : list Value)
| Faults (k : ErrorKind) (e : Value).

(** The interpreter, out of scope of the specification: the outcome of
    invoking a value on a list of arguments. *)
Definition Interp : Type := Value -> list Value -> Outcome.

(** Modelled from the spec: [int lua_error(lua_State *L)], which "raises the
    top-of-stack value as the active fault"; an explicit [error()] is a
    RuntimeFault. *)
Definition lua_error (L : lua_State) : option Outcome :=
  x ← stack_slot L (-1); Some (Faults RuntimeFault x).

(** "up to [nresults] results (or all, if unbounded)" *)
Definition adjust_results (nresults : Z) (rs : list Value) : list Value :=
  if nresults =? LUA_MULTRET then rs else take (Z.to_nat nresults) rs.

(** The handler [errfunc] names: none at 0, else the value in that slot. *)
Definition error_handler (L : lua_State) (errfunc : Z) : option (option Value) :=
  if errfunc =? 0 then Some None
  else h ← stack_slot L errfunc; Some (Some h).

(** Modelled from the spec: [int lua_pcall(lua_State *L, int nargs, int
    nresults, int errfunc)].  The callable found [nargs+1] slots below the top
    is invoked with the [nargs] arguments above it.  On normal completion the
    callable and its arguments are removed, up to [nresults] results (all of
    them at [LUA_MULTRET]) are pushed in their place and the status is Ok.  On
    fault the stack is unwound back to the pre-call depth, here the slots
    below the callable and its arguments, "exactly one error value remains on
    top", and the status is the code of the fault.  "If [errfunc] names a
    handler, it is invoked with the raw fault value before unwinding
    completes, and its single return value becomes the propagated error"; a
    fault of the handler itself is an ErrorInErrorHandler.  There is no result
    when the stack holds fewer than [nargs+1] values or [errfunc] names no
    slot. *)
Definition lua_pcall (run : Interp) (L : lua_State) (nargs nresults errfunc : Z)
  : option (Z * lua_State) :=
  if (nargs <? 0) || (lua_gettop L <? nargs + 1) then None
  else
    let base := Z.to_nat (lua_gettop L - (nargs + 1)) in
    let below := take base (stack L) in
    f ← stack L !! base;
    handler ← error_handler L errfunc;
    match run f (drop (S base) (stack L)) with
    | Returns rs =>
        Some (LUA_OK, {| stack := below ++ adjust_results nresults rs |})
    | Faults k x =>
        match handler with
        | None => Some (status_of k, {| stack := below ++ [x] |})
        | Some h =>
            match run h [x] with
            | Returns ys => Some (status_of k, {| stack := below ++ [hd VNil ys] |})
            | Faults _ e => Some (LUA_ERRERR, {| stack := below ++ [e] |})
            end
        end
    end.

(** ** The reference registry *)

(** Modelled from the spec: the reference bookkeeping of a table, "a mapping
    from a small non-negative integer handle to a retained Value inside a
    designated table", whose handles "are drawn from a recycling free-list".
    [next_handle] is the first handle never issued. *)
Record RefTable : Type := {
  entries : gmap Z Value;
  free_list : list Z;
  next_handle : Z
}.

Definition new_table : RefTable :=
  {| entries := ∅; free_list := []; next_handle := 0 |}.

(** "a freshly-allocated or recycled small integer handle": a released
    handle when there is one, else the next fresh one, as long as it is an
    [int]. *)
Definition ref_alloc (T : RefTable) (v : Value) : option (Z * RefTable) :=
  match free_list T with
  | h :: rest =>
      Some (h, {| entries := <[h := v]> (entries T); free_list := rest;
                  next_handle := next_handle T |})
  | [] =>
      if is_int (next_handle T)
      then Some (next_handle T,
                 {| entries := <[next_handle T := v]> (entries T);
                    free_list := []; next_handle := next_handle T + 1 |})
      else None
  end.

(** "returns the handle to the free list"; releasing a handle that is not
    live is a contract violation and has no result. *)
Definition ref_release (T : RefTable) (h : Z) : option RefTable :=
  match entries T !! h with
  | Some _ =>
      Some {| entries := delete h (entries T); free_list := h :: free_list T;
              next_handle := next_handle T |}
  | None => None
  end.

(** The state outside the stack: the three special tables of a State
    (Registry, Environment, Globals), the tables of the heap by identity, and
    the upvalue slots of the running closure. *)
Record Shared : Type := {
  registry : RefTable;
  environ : RefTable;
  globals : RefTable;
  tables : gmap nat RefTable;
  upvalues : list Value
}.

Inductive TableRef : Type :=
| Registry
| Environ
| Globals
| Heap (id : nat).

(** Modelled from the spec: [luaL_newstate], "a State with an empty Globals
    table and empty Registry". *)
Definition new_shared : Shared :=
  {| registry := new_table; environ := new_table; globals := new_table;
     tables := ∅; upvalues := [] |}.

(** The value an index designates, pseudo-indices included, when it is not
    one of the three special tables: an upvalue slot below
    [LUA_GLOBALSINDEX] (slot [i] at [lua_upvalueindex i]), else a stack
    slot. *)
Definition indexed_value (G : Shared) (L : lua_State) (t : Z) : option Value :=
  if t <? LUA_GLOBALSINDEX
  then upvalues G !! Z.to_nat (LUA_GLOBALSINDEX - t - 1)
  else stack_slot L t.

(** The table an index designates: pseudo-indices are "reserved constants
    resolving to fixed special tables independent of stack depth: the
    Registry, the Environment, the Globals table, and Upvalue slots"; any
    other index designates the table value in its slot. *)
Definition table_ref (G : Shared) (L : lua_State) (t : Z) : option TableRef :=
  if t =? LUA_REGISTRYINDEX then Some Registry
  else if t =? LUA_ENVIRONINDEX then Some Environ
  else if t =? LUA_GLOBALSINDEX then Some Globals
  else
    v ← indexed_value G L t;
    match v with VTable id => Some (Heap id) | _ => None end.

(** The reference bookkeeping of a table; a table of the heap in which no
    reference was taken yet has that of a new table. *)
Definition get_table (G : Shared) (r : TableRef) : RefTable :=
  match r with
  | Registry => registry G
  | Environ => environ G
  | Globals => globals G
  | Heap id => default new_table (tables G !! id)
  end.

Definition set_table (G : Shared) (r : TableRef) (T : RefTable) : Shared :=
  match r with
  | Registry =>
      {| registry := T; environ := environ G; globals := globals G;
         tables := tables G; upvalues := upvalues G |}
  | Environ =>
      {| registry := registry G; environ := T; globals := globals G;
         tables := tables G; upvalues := upvalues G |}
  | Globals =>
      {| registry := registry G; environ := environ G; globals := T;
         tables := tables G; upvalues := upvalues G |}
  | Heap id =>
      {| registry := registry G; environ := environ G; globals := globals G;
         tables := <[id := T]> (tables G); upvalues := upvalues G |}
  end.

(** A call runs another closure: the upvalue slots change, the tables do
    not. *)
Definition enter_call (G : Shared) (ups : list Value) : Shared :=
  {| registry := registry G; environ := environ G; globals := globals G;
     tables := tables G; upvalues := ups |}.

(** The stack without its top value. *)
Definition pop (L : lua_State) : lua_State :=
  {| stack := take (length (stack L) - 1) (stack L) |}.

(** Modelled from the spec: [int luaL_ref(lua_State *L, int t)], which
    "consumes the value at the top of the stack", installs it as an entry of
    the table at index [t] and returns "a freshly-allocated or recycled small
    integer handle"; the ref-nil sentinel "avoids allocation for nil values"
    and the no-ref sentinel "signals failure".  The operation fails when [t]
    designates no table or no handle is left.  There is no result on an empty
    stack. *)
Definition luaL_ref (G : Shared) (L : lua_State) (t : Z)
  : option (Z * Shared * lua_State) :=
  v ← stack_slot L (-1);
  if decide (type_tag v = LUA_TNIL) then Some (LUA_REFNIL, G, pop L)
  else
    match r ← table_ref G L t; a ← ref_alloc (get_table G r) v;
          Some (a.1, set_table G r a.2) with
    | Some (h, G') => Some (h, G', pop L)
    | None => Some (LUA_NOREF, G, pop L)
    end.

(** Modelled from the spec: [void luaL_unref(lua_State *L, int t, int ref)],
    which "returns the handle to the free list". *)
Definition luaL_unref (G : Shared) (L : lua_State) (t ref : Z) : option Shared :=
  r ← table_ref G L t;
  T' ← ref_release (get_table G r) ref; Some (set_table G r T').

(** The states a host reaches from a new State by calls, by taking
    references and by releasing them. *)
Inductive ref_reachable : Shared -> Prop :=
| reach_newstate : ref_reachable new_shared
| reach_call G ups :
    ref_reachable G -> ref_reachable (enter_call G ups)
| reach_ref G L t h G' L' :
    ref_reachable G -> luaL_ref G L t = Some (h, G', L') -> ref_reachable G'
| reach_unref G L t ref G' :
    ref_reachable G -> luaL_unref G L t ref = Some G' -> ref_reachable G'.

(** Handles of a table lie between 0 and the first handle never issued,
    which is at most one past the largest [int]; the free list holds each
    released handle once, and none of them is live. *)
Definition wf_table (T : RefTable) : Prop :=
  0 <= next_handle T <= INT_MAX + 1 /\
  (forall h, is_Some (entries T !! h) -> 0 <= h < next_handle T) /\
  (forall h, h ∈ free_list T ->
     0 <= h < next_handle T /\ entries T !! h = None) /\
  NoDup (free_list T).

Definition wf_shared (G : Shared) : Prop :=
  forall r, wf_table (get_table G r).

(** ** Debug records (lua.h, lines 52-67) *)

(** [struct lua_Debug].  A [const char *] is NULL ([None]) or a string;
    [short_src] is the content of the array of [LUA_IDSIZE] bytes. *)
Record lua_Debug : Type := {
  event : Z;
  name : option string;
  namewhat : option string;
  what : option string;
  source : option string;
  currentline : Z;
  nups : Z;
  linedefined : Z;
  lastlinedefined : Z;
  short_src : list ascii;
  i_ci : Z
}.

(** The C string an array of bytes holds: the bytes before its first NUL;
    an array without a NUL holds none. *)
Fixpoint c_string (buf : list ascii) : option (list ascii) :=
  match buf with
  | [] => None
  | c :: rest =>
      if Ascii.eqb c zero then Some [] else s ← c_string rest; Some (c :: s)
  end.







(** The frame of the call chain (the executing level first) a record
    refers to through its private part. *)
Definition active_frame (chain : list lua_Debug) (ar : lua_Debug) : option lua_Debug :=
  if 0 <=? i_ci ar then chain !! Z.to_nat (i_ci ar) else None.

(** Modelled from the spec: [int lua_getstack(lua_State *L, int level,
    lua_Debug *ar)], which "walks outward from the currently executing frame
    by [level] (0 = current), failing distinctly once past the bottom of the
    call chain". *)
Definition lua_getstack (chain : list lua_Debug) (level : Z) (ar : lua_Debug)
  : Z * lua_Debug :=
  if (0 <=? level) && (level <? Z.of_nat (length chain))
  then (1, {| event := event ar; name := name ar; namewhat := namewhat ar;
              what := what ar; source := source ar;
              currentline := currentline ar; nups := nups ar;
              linedefined := linedefined ar;
              lastlinedefined := lastlinedefined ar;
              short_src := short_src ar; i_ci := level |})
  else (0, ar).


(** ** Concrete inputs *)

(** An interpreter with three callables: function 0 raises [error("boom")],
    function 1 is a handler that returns a traceback, function 2 is a handler
    that faults itself. *)
Definition sample_interp : Interp :=
  fun f _ =>
    match f with
    | VFunction 0 => Faults RuntimeFault (VString "boom")
    | VFunction 1 => Returns [VString "traceback"]
    | _ => Faults RuntimeFault (VString "handler failed")
    end.

(** A stack with a number, a handler and, on top, the callable to invoke
    with no argument. *)
Definition sample_call (handler : nat) : lua_State :=
  {| stack := [VNumber (S754_zero false); VFunction handler; VFunction 0] |}.





(** * Properties of the header *)

(** ** C [int] arithmetic *)

(** Linear arithmetic over the header's constants. *)
Ltac int_arith :=
  unfold int_range, INT_MIN, INT_MAX, LUA_REGISTRYINDEX, LUA_ENVIRONINDEX,
    LUA_GLOBALSINDEX, LUA_REFNIL, LUA_NOREF in *;
  lia.

(** Case analysis on the comparisons a definition tests. *)
Ltac split_tests :=
  repeat match goal with
    | |- context [?a <? ?b] => destruct (Z.ltb_spec a b)
    | |- context [?a <=? ?b] => destruct (Z.leb_spec a b)
    end;
  simpl; try done; try int_arith.

Lemma is_int_spec (z : Z) : is_int z = true <-> int_range z.
Proof. unfold is_int, int_range. rewrite andb_true_iff, !Z.leb_le. tauto. Qed.

Lemma int_result_Some (z : Z) : int_range z -> int_result z = Some z.
Proof.
  intros Hz. unfold int_result.
  destruct (is_int z) eqn:E; [done|].
  apply is_int_spec in Hz. congruence.
Qed.

Lemma int_result_inv (z r : Z) : int_result z = Some r -> r = z /\ int_range z.
Proof.
  unfold int_result. destruct (is_int z) eqn:E; [|done].
  intros [= <-]. split; [done|]. by apply is_int_spec.
Qed.

Lemma LUA_ERRFILE_no_overflow : int_add LUA_ERRERR 1 = Some LUA_ERRFILE.
Proof. reflexivity. Qed.

(** ** The macros *)

Lemma lua_upvalueindex_inv (i p : Z) :
  lua_upvalueindex i = Some p -> p = LUA_GLOBALSINDEX - i /\ int_range p.
Proof.
  unfold lua_upvalueindex, int_sub. intros Hp.
  apply int_result_inv in Hp as [-> Hr]. done.
Qed.

(** The subtraction of the macro is representable exactly up to this upvalue
    number; one more is a signed overflow. *)
Lemma lua_upvalueindex_last : lua_upvalueindex 2147473646 = Some INT_MIN.
Proof. reflexivity. Qed.

Lemma lua_upvalueindex_overflow : lua_upvalueindex 2147473647 = None.
Proof. reflexivity. Qed.

Lemma abs_index_positive `{StackTop State} (L : State) (i : Z) :
  0 < i -> abs_index L i = Some i.
Proof. intros Hi. unfold abs_index. split_tests. Qed.

Lemma abs_index_pseudo `{StackTop State} (L : State) (i : Z) :
  i <= LUA_REGISTRYINDEX -> abs_index L i = Some i.
Proof. intros Hi. unfold abs_index. split_tests. Qed.

Lemma abs_index_relative `{StackTop State} (L : State) (i : Z) :
  i <= 0 -> LUA_REGISTRYINDEX < i ->
  abs_index L i = t ← int_add (lua_gettop L) i; int_add t 1.
Proof. intros Hi Hr. unfold abs_index. split_tests. Qed.

(** The two additions of the macro are exact on a stack whose depth is a
    non-negative [int], for the indices that count from the top. *)
Lemma abs_index_stack_slot `{StackTop State} (L : State) (i : Z) :
  0 <= lua_gettop L <= INT_MAX ->
  - lua_gettop L - 1 <= i <= -1 -> LUA_REGISTRYINDEX < i ->
  abs_index L i = Some (lua_gettop L + i + 1).
Proof.
  intros Htop Hi Hr. rewrite abs_index_relative by lia.
  unfold int_add. rewrite (int_result_Some (lua_gettop L + i)) by int_arith.
  simpl. apply int_result_Some. int_arith.
Qed.

(** Index 0 is no stack index: the macro sends it one past the top. *)
Lemma abs_index_zero `{StackTop State} (L : State) :
  0 <= lua_gettop L < INT_MAX -> abs_index L 0 = Some (lua_gettop L + 1).
Proof.
  intros Htop. rewrite abs_index_relative by int_arith.
  unfold int_add. rewrite (int_result_Some (lua_gettop L + 0)) by int_arith.
  simpl. rewrite int_result_Some by int_arith. f_equal. lia.
Qed.

(** C1: the status codes are the integers 0 to 6 in the order ok, yield,
    runtime fault, syntax error, memory fault, error in handler, file error;
    they are pairwise distinct, and the file error code is the error-in-handler
    code plus one. *)
Theorem status_codes_fixed :
  LUA_OK = 0 /\ LUA_YIELD = 1 /\ LUA_ERRRUN = 2 /\ LUA_ERRSYNTAX = 3 /\
  LUA_ERRMEM = 4 /\ LUA_ERRERR = 5 /\ LUA_ERRFILE = 6 /\
  LUA_ERRFILE = LUA_ERRERR + 1 /\
  status_codes = seqZ 0 7 /\ NoDup status_codes.
Proof.
  repeat split; try reflexivity.
  change status_codes with (seqZ 0 7). apply NoDup_seqZ.
Qed.

(** C2: the type tag of "none" is -1 and the tags nil, boolean, light
    userdata, number, string, table, function, userdata, thread are the
    consecutive integers 0 to 8 in that order; the ten tags are pairwise
    distinct. *)
Theorem type_tags_fixed :
  LUA_TNONE = -1 /\
  LUA_TNIL = 0 /\ LUA_TBOOLEAN = 1 /\ LUA_TLIGHTUSERDATA = 2 /\
  LUA_TNUMBER = 3 /\ LUA_TSTRING = 4 /\ LUA_TTABLE = 5 /\
  LUA_TFUNCTION = 6 /\ LUA_TUSERDATA = 7 /\ LUA_TTHREAD = 8 /\
  type_tags = seqZ 0 9 /\ NoDup (LUA_TNONE :: type_tags).
Proof.
  repeat split; try reflexivity.
  change (LUA_TNONE :: type_tags) with (seqZ (-1) 10). apply NoDup_seqZ.
Qed.

(** C3: every pseudo-index (the registry, environment and globals constants,
    and the value of [lua_upvalueindex i] for an upvalue number [i >= 1]) is
    a negative integer at or below [LUA_REGISTRYINDEX], and [abs_index] returns
    it unchanged whatever [lua_gettop] answers.  The macro has a value at
    every upvalue number up to 2147473646, where its subtraction stops being
    representable as an [int]. *)
Theorem pseudo_index_fixed :
  (forall i, 1 <= i <= 2147473646 ->
     lua_upvalueindex i = Some (LUA_GLOBALSINDEX - i)) /\
  (forall p, pseudo_index p ->
     p <= LUA_REGISTRYINDEX /\ p < 0 /\
     forall (State : Type) (gettop : StackTop State) (L : State),
       abs_index L p = Some p).
Proof.
  split.
  - intros i Hi. apply int_result_Some. int_arith.
  - intros p Hp.
    assert (p <= LUA_REGISTRYINDEX) as Hle.
    { destruct Hp as [| | |i p Hi Hp]; try int_arith.
      apply lua_upvalueindex_inv in Hp as [-> _]. int_arith. }
    split; [done|]. split; [int_arith|].
    intros State gettop L. by apply abs_index_pseudo.
Qed.

Lemma pseudo_index_fixed_witness :
  pseudo_index (-10003) /\
  -10003 <= LUA_REGISTRYINDEX /\ abs_index (H := depth_top) 20000 (-10003) = Some (-10003).
Proof.
  assert (pseudo_index (-10003)) as Hp.
  { apply (pseudo_upvalue 1); [lia | reflexivity]. }
  split; [exact Hp|].
  destruct (proj2 pseudo_index_fixed (-10003) Hp) as (Hle & _ & Habs).
  split; [exact Hle | exact (Habs Z depth_top 20000)].
Defined.

(** C4: [abs_index] returns a positive index unchanged, and turns a negative
    stack index [i], with [-lua_gettop L <= i <= -1] and above the
    pseudo-indices, into [lua_gettop L + i + 1], a position between 1 and
    [lua_gettop L]; at [-1] it returns [lua_gettop L], the top.  The depth
    [lua_gettop] answers is a non-negative [int]. *)
Theorem abs_index_addressing `{StackTop State} (L : State) :
  (forall i, 0 < i -> abs_index L i = Some i) /\
  (0 <= lua_gettop L <= INT_MAX ->
   forall i, - lua_gettop L <= i <= -1 -> LUA_REGISTRYINDEX < i ->
     abs_index L i = Some (lua_gettop L + i + 1) /\
     1 <= lua_gettop L + i + 1 <= lua_gettop L) /\
  (0 <= lua_gettop L <= INT_MAX -> abs_index L (-1) = Some (lua_gettop L)).
Proof.
  split; [|split].
  - intros i Hi. by apply abs_index_positive.
  - intros Htop i Hi Hr. split; [|lia].
    apply abs_index_stack_slot; [done|lia|done].
  - intros Htop.
    rewrite abs_index_stack_slot; [f_equal; lia|done|lia|int_arith].
Qed.

Lemma abs_index_addressing_witness :
  abs_index (H := depth_top) 5 3 = Some 3 /\
  abs_index (H := depth_top) 5 (-2) = Some 4 /\
  abs_index (H := depth_top) 5 (-1) = Some 5.
Proof.
  pose proof (abs_index_addressing (H := depth_top) 5) as (Hpos & Hneg & Htop).
  assert (0 <= lua_gettop (StackTop := depth_top) 5 <= INT_MAX) as Hd
    by (vm_compute; split; discriminate).
  split; [apply Hpos; reflexivity|].
  split; [|exact (Htop Hd)].
  refine (proj1 (Hneg Hd (-2) _ _)); vm_compute; try split; congruence.
Defined.

(** C5: an index at or below [LUA_REGISTRYINDEX = -10000] is returned by
    [abs_index] as it is, so it never resolves to a stack position between 1
    and [lua_gettop L]; this holds at every depth, also when the stack is deep
    enough for the top-relative formula to give such a position. *)
Theorem pseudo_index_never_stack_slot `{StackTop State} (L : State) (i : Z) :
  i <= LUA_REGISTRYINDEX ->
  LUA_REGISTRYINDEX = -10000 /\
  abs_index L i = Some i /\
  (forall r, abs_index L i = Some r -> ~ (1 <= r <= lua_gettop L)) /\
  (- i <= lua_gettop L ->
   1 <= lua_gettop L + i + 1 <= lua_gettop L /\
   abs_index L i <> Some (lua_gettop L + i + 1)).
Proof.
  intros Hi. pose proof (abs_index_pseudo L i Hi) as Habs.
  split; [reflexivity|]. split; [done|]. split.
  - intros r Hr. rewrite Habs in Hr. injection Hr as <-. int_arith.
  - intros Hdeep. split; [int_arith|].
    rewrite Habs. intros [= E]. int_arith.
Qed.

Lemma pseudo_index_never_stack_slot_witness :
  abs_index (H := depth_top) 20000 (-10000) = Some (-10000) /\
  abs_index (H := depth_top) 20000 (-10000) <> Some 10001.
Proof.
  assert (-10000 <= LUA_REGISTRYINDEX) as Hi by (vm_compute; discriminate).
  assert (- -10000 <= lua_gettop (StackTop := depth_top) 20000) as Hd
    by (vm_compute; discriminate).
  pose proof (pseudo_index_never_stack_slot (H := depth_top) 20000 (-10000) Hi)
    as (_ & Habs & _ & Hrel).
  split; [exact Habs | exact (proj2 (Hrel Hd))].
Defined.

(** * Properties of the modelled machine *)

(** ** Stack depth *)

Lemma lua_gettop_push (v : Value) (L : lua_State) :
  lua_gettop (lua_push v L) = lua_gettop L + 1.
Proof.
  unfold lua_gettop, vm_gettop, lua_push; simpl. rewrite length_app; simpl. lia.
Qed.

Lemma lua_settop_depth (L : lua_State) (t : Z) :
  0 <= t ->
  exists L', lua_settop L t = Some L' /\ lua_gettop L' = t.
Proof.
  intros Ht. unfold lua_settop.
  replace (0 <=? t) with true by (symmetry; by apply Z.leb_le).
  eexists; split; [reflexivity|].
  unfold lua_gettop, vm_gettop; simpl. rewrite length_resize. lia.
Qed.

Lemma lua_gettop_nonneg (L : lua_State) : 0 <= lua_gettop L.
Proof. unfold lua_gettop, vm_gettop. lia. Qed.

(** In the modelled machine a pseudo-index designates no stack slot, and
    index -1 designates the value just pushed. *)
Lemma stack_slot_pseudo (L : lua_State) (i : Z) :
  i <= LUA_REGISTRYINDEX -> stack_slot L i = None.
Proof.
  intros Hi. unfold stack_slot. rewrite abs_index_pseudo by done. simpl.
  split_tests.
Qed.

Lemma stack_slot_top (L : lua_State) (v : Value) :
  lua_gettop L < INT_MAX -> stack_slot (lua_push v L) (-1) = Some v.
Proof.
  intros Hdepth. pose proof (lua_gettop_nonneg L) as Hpos.
  pose proof (lua_gettop_push v L) as Hpush.
  unfold stack_slot.
  rewrite abs_index_stack_slot by (rewrite ?Hpush; int_arith).
  rewrite Hpush. simpl. split_tests.
  replace (lua_gettop L + 1 + -1 + 1 - 1) with (lua_gettop L) by lia.
  unfold lua_gettop, vm_gettop, lua_push; simpl. rewrite Nat2Z.id.
  by rewrite lookup_app_r, Nat.sub_diag.
Qed.

(** C8: a push followed by [lua_settop] at the depth [t] read before the push
    gives a state whose depth is [t] again, and the stack is the one before
    the push.  The depth is restored whatever the state between the two
    calls is. *)
Theorem push_settop_roundtrip (L : lua_State) (v : Value) :
  lua_gettop (lua_push v L) = lua_gettop L + 1 /\
  (exists L',
     lua_settop (lua_push v L) (lua_gettop L) = Some L' /\
     lua_gettop L' = lua_gettop L /\
     L' = L) /\
  (forall pushed : lua_State,
     exists L',
       lua_settop pushed (lua_gettop L) = Some L' /\
       lua_gettop L' = lua_gettop L).
Proof.
  split; [apply lua_gettop_push|]. split.
  - exists L. destruct L as [s]. split; [|done].
    unfold lua_settop, lua_gettop, vm_gettop, lua_push; simpl.
    replace (0 <=? Z.of_nat (length s)) with true
      by (symmetry; apply Z.leb_le; lia).
    rewrite Nat2Z.id. by rewrite resize_app.
  - intros pushed. apply lua_settop_depth, lua_gettop_nonneg.
Qed.

(** ** Debug records *)




(** [LUA_IDSIZE] is 128, not the 60 of stock Lua, and a C string held by
    a [short_src] array of that size has at most 127 characters. *)
Lemma LUA_IDSIZE_not_stock : LUA_IDSIZE = 128 /\ LUA_IDSIZE <> 60.
Proof. done. Qed.

Lemma c_string_shorter (buf s : list ascii) :
  c_string buf = Some s -> (length s < length buf)%nat.
Proof.
  revert s. induction buf as [|c rest IH]; intros s; simpl; [done|].
  destruct (Ascii.eqb c zero).
  - intros [= <-]. simpl. lia.
  - destruct (c_string rest) as [s'|]; simpl; [|done].
    intros [= <-]. simpl. specialize (IH s' eq_refl). lia.
Qed.

Lemma short_src_string_bound (ar : lua_Debug) (s : list ascii) :
  length (short_src ar) = Z.to_nat LUA_IDSIZE ->
  c_string (short_src ar) = Some s ->
  (length s <= 127)%nat.
Proof.
  intros Hsize Hs. apply c_string_shorter in Hs.
  rewrite Hsize in Hs. change (Z.to_nat LUA_IDSIZE) with 128%nat in Hs. lia.
Qed.

(** A record [lua_getstack] filled refers to an active level. *)
Lemma lua_getstack_active (chain : list lua_Debug) (level : Z) (ar ar' : lua_Debug) :
  lua_getstack chain level ar = (1, ar') ->
  i_ci ar' = level /\ is_Some (active_frame chain ar').
Proof.
  unfold lua_getstack.
  destruct (0 <=? level) eqn:E0; simpl; [|done].
  destruct (level <? Z.of_nat (length chain)) eqn:E1; [|done].
  intros [= <-]. split; [done|].
  unfold active_frame; simpl. rewrite E0.
  apply lookup_lt_is_Some. apply Z.leb_le in E0. apply Z.ltb_lt in E1. lia.
Qed.




(** ** Protected calls *)

Lemma status_of_is_error (k : ErrorKind) :
  status_of k ∈ [LUA_ERRRUN; LUA_ERRMEM; LUA_ERRSYNTAX; LUA_ERRERR].
Proof. destruct k; simpl; set_solver. Qed.

(** No handler is named exactly at [errfunc = 0]. *)
Lemma error_handler_None (L : lua_State) (errfunc : Z) :
  error_handler L errfunc = Some None <-> errfunc = 0.
Proof.
  unfold error_handler. destruct (Z.eqb_spec errfunc 0) as [->|Hne].
  - done.
  - destruct (stack_slot L errfunc); simpl; split; done.
Qed.

Lemma lua_error_raises (L : lua_State) (x : Value) :
  stack_slot L (-1) = Some x -> lua_error L = Some (Faults RuntimeFault x).
Proof. intros Hx. unfold lua_error. by rewrite Hx. Qed.

Lemma lua_error_inv (L : lua_State) (k : ErrorKind) (x : Value) :
  lua_error L = Some (Faults k x) ->
  k = RuntimeFault /\ stack_slot L (-1) = Some x.
Proof.
  unfold lua_error. destruct (stack_slot L (-1)) as [y|]; simpl; [|done].
  by intros [= <- <-].
Qed.

(** C7, as the code of the model has it: when the callee of a protected call
    faults, the result is the stack below the callable and its arguments with
    exactly one error value on top, and the status is one of runtime fault,
    memory fault, syntax error, error in handler.  Without a handler
    ([errfunc = 0]) the value is the raw fault value and the status the
    fault's own, so an explicit [error(X)], which is [lua_error] on a callee
    stack [C] with [X] on top, leaves [X] and reports a runtime fault.  With a
    handler the value is what the handler returns, and a handler that faults
    gives the status error-in-handler. *)
Theorem pcall_fault_unwinds
    (run : Interp) (L : lua_State) (nargs nresults errfunc : Z)
    (f : Value) (handler : option Value) (k : ErrorKind) (x : Value) :
  0 <= nargs -> nargs + 1 <= lua_gettop L ->
  stack L !! Z.to_nat (lua_gettop L - (nargs + 1)) = Some f ->
  error_handler L errfunc = Some handler ->
  run f (drop (S (Z.to_nat (lua_gettop L - (nargs + 1)))) (stack L)) = Faults k x ->
  exists status e L',
    lua_pcall run L nargs nresults errfunc = Some (status, L') /\
    stack L' = take (Z.to_nat (lua_gettop L - (nargs + 1))) (stack L) ++ [e] /\
    lua_gettop L' = lua_gettop L - (nargs + 1) + 1 /\
    status ∈ [LUA_ERRRUN; LUA_ERRMEM; LUA_ERRSYNTAX; LUA_ERRERR] /\
    match handler with
    | None =>
        e = x /\ status = status_of k /\
        forall C : lua_State,
          lua_error C = Some (Faults k x) ->
          stack_slot C (-1) = Some e /\ status = LUA_ERRRUN
    | Some h =>
        match run h [x] with
        | Returns ys => e = hd VNil ys /\ status = status_of k
        | Faults _ e' => e = e' /\ status = LUA_ERRERR
        end
    end.
Proof.
  intros Hnargs Hdepth Hf Hh Hrun.
  assert (forall e, lua_gettop {| stack :=
            take (Z.to_nat (lua_gettop L - (nargs + 1))) (stack L) ++ [e] |}
          = lua_gettop L - (nargs + 1) + 1) as Htop.
  { intros e. unfold lua_gettop, vm_gettop in *; simpl.
    rewrite length_app, length_take; simpl. lia. }
  unfold lua_pcall.
  replace (nargs <? 0) with false by (symmetry; by apply Z.ltb_ge).
  replace (lua_gettop L <? nargs + 1) with false by (symmetry; by apply Z.ltb_ge).
  simpl. rewrite Hf, Hh; simpl. rewrite Hrun.
  destruct handler as [h|].
  - destruct (run h [x]) as [ys|k' e'] eqn:Hhandler.
    + exists (status_of k), (hd VNil ys). eexists. split; [reflexivity|].
      split; [done|]. split; [apply Htop|].
      split; [apply status_of_is_error|done].
    + exists LUA_ERRERR, e'. eexists. split; [reflexivity|].
      split; [done|]. split; [apply Htop|].
      split; [set_solver|done].
  - exists (status_of k), x. eexists. split; [reflexivity|].
    split; [done|]. split; [apply Htop|].
    split; [apply status_of_is_error|].
    split; [done|]. split; [done|].
    intros C HC. by apply lua_error_inv in HC as [-> HX].
Qed.

Lemma pcall_fault_unwinds_witness :
  exists L',
    lua_pcall sample_interp (sample_call 1) 0 LUA_MULTRET 0
      = Some (LUA_ERRRUN, L') /\
    stack L' = [VNumber (S754_zero false); VFunction 1; VString "boom"].
Proof.
  destruct (pcall_fault_unwinds sample_interp (sample_call 1) 0 LUA_MULTRET 0
              (VFunction 0) None RuntimeFault (VString "boom"))
    as (status & e & L' & Hcall & Hstack & _ & _ & He & Hstatus & _);
    [vm_compute; discriminate | vm_compute; discriminate
    | reflexivity | reflexivity | reflexivity |].
  exists L'. rewrite Hcall, Hstack, He, Hstatus. split; reflexivity.
Defined.

(** C7 as stated fails: the callee raises [error("boom")], the handler that
    [errfunc] names returns a traceback, and the value left on top is the
    traceback, not the raised value; with a handler that faults, the status
    is error-in-handler, not runtime fault. *)
Lemma pcall_handler_replaces_error :
  sample_interp (VFunction 0) [] = Faults RuntimeFault (VString "boom") /\
  lua_pcall sample_interp (sample_call 1) 0 LUA_MULTRET 2
    = Some (LUA_ERRRUN,
            {| stack := [VNumber (S754_zero false); VFunction 1;
                         VString "traceback"] |}) /\
  VString "traceback" <> VString "boom" /\
  lua_pcall sample_interp (sample_call 2) 0 LUA_MULTRET 2
    = Some (LUA_ERRERR,
            {| stack := [VNumber (S754_zero false); VFunction 2;
                         VString "handler failed"] |}) /\
  LUA_ERRERR <> LUA_ERRRUN.
Proof. repeat split; done. Qed.

(** ** The reference registry *)

Lemma wf_new_table : wf_table new_table.
Proof.
  unfold wf_table, new_table; simpl. split; [int_arith|].
  split; [|split; [|apply NoDup_nil_2]].
  - intros h [v Hv]. by rewrite lookup_empty in Hv.
  - intros h Hh. by apply elem_of_nil in Hh.
Qed.

(** An allocation issues a handle that was not live, and makes it live. *)
Lemma ref_alloc_spec (T T' : RefTable) (v : Value) (h : Z) :
  wf_table T -> ref_alloc T v = Some (h, T') ->
  wf_table T' /\ entries T !! h = None /\ entries T' !! h = Some v /\
  (forall h', h' <> h -> entries T' !! h' = entries T !! h').
Proof.
  intros (Hnext & Hlive & Hfree & Hnodup) Halloc. unfold ref_alloc in Halloc.
  destruct (free_list T) as [|h0 rest] eqn:Efree.
  - destruct (is_int (next_handle T)) eqn:Eint; [|done].
    injection Halloc as <- <-. apply is_int_spec in Eint as [_ Hmax].
    assert (entries T !! next_handle T = None) as Hfresh.
    { destruct (entries T !! next_handle T) as [w|] eqn:E; [|done].
      assert (0 <= next_handle T < next_handle T) by (apply Hlive; by exists w).
      lia. }
    unfold wf_table; simpl.
    split; [|split; [done|split; [apply lookup_insert_eq|]]].
    + split; [lia|]. split; [|split; [|apply NoDup_nil_2]].
      * intros h [w Hw].
        destruct (decide (next_handle T = h)) as [<-|Hne]; [lia|].
        rewrite lookup_insert_ne in Hw by done.
        assert (0 <= h < next_handle T) by (apply Hlive; by exists w). lia.
      * intros h Hh. by apply elem_of_nil in Hh.
    + intros h' Hne. by rewrite lookup_insert_ne.
  - injection Halloc as <- <-.
    destruct (Hfree h0) as [Hh0 Hnone]; [left|].
    apply NoDup_cons in Hnodup as [Hnotin Hnodup].
    unfold wf_table; simpl.
    split; [|split; [done|split; [apply lookup_insert_eq|]]].
    + split; [done|]. split; [|split; [|done]].
      * intros h [w Hw]. destruct (decide (h0 = h)) as [<-|Hne]; [done|].
        rewrite lookup_insert_ne in Hw by done. apply Hlive. by exists w.
      * intros h Hh. destruct (Hfree h) as [Hb Hn]; [by right|].
        split; [done|]. rewrite lookup_insert_ne; [done|].
        intros ->. by apply Hnotin.
    + intros h' Hne. by rewrite lookup_insert_ne.
Qed.

Lemma ref_release_spec (T T' : RefTable) (h : Z) :
  wf_table T -> ref_release T h = Some T' -> wf_table T'.
Proof.
  intros (Hnext & Hlive & Hfree & Hnodup) Hrel. unfold ref_release in Hrel.
  destruct (entries T !! h) as [w|] eqn:Eh; [|done].
  injection Hrel as <-. unfold wf_table; simpl.
  split; [done|]. split; [|split].
  - intros h' [w' Hw']. apply Hlive. exists w'.
    destruct (decide (h = h')) as [<-|Hne].
    + by rewrite lookup_delete_eq in Hw'.
    + by rewrite lookup_delete_ne in Hw'.
  - intros h' Hh'. apply elem_of_cons in Hh' as [->|Hin].
    + split; [apply Hlive; by exists w|apply lookup_delete_eq].
    + destruct (Hfree h' Hin) as [Hb Hn]. split; [done|].
      apply lookup_delete_None. by right.
  - apply NoDup_cons. split; [|done].
    intros Hin. destruct (Hfree h Hin) as [_ Hn]. congruence.
Qed.

Lemma get_set_table (G : Shared) (r r' : TableRef) (T : RefTable) :
  get_table (set_table G r T) r' = T \/
  get_table (set_table G r T) r' = get_table G r'.
Proof.
  destruct r as [| | |id], r' as [| | |id']; simpl; try by right.
  all: try by left.
  destruct (decide (id = id')) as [<-|Hne].
  - left. by rewrite lookup_insert_eq.
  - right. by rewrite lookup_insert_ne.
Qed.

Lemma get_set_table_eq (G : Shared) (r : TableRef) (T : RefTable) :
  get_table (set_table G r T) r = T.
Proof. destruct r; simpl; [done..|by rewrite lookup_insert_eq]. Qed.

Lemma wf_set_table (G : Shared) (r : TableRef) (T : RefTable) :
  wf_shared G -> wf_table T -> wf_shared (set_table G r T).
Proof.
  intros HG HT r'.
  destruct (get_set_table G r r' T) as [->| ->]; [done|apply HG].
Qed.

(** The three special tables are designated at every depth, whatever the
    stack and the upvalue slots hold. *)
Lemma table_ref_special (G : Shared) (L : lua_State) :
  table_ref G L LUA_REGISTRYINDEX = Some Registry /\
  table_ref G L LUA_ENVIRONINDEX = Some Environ /\
  table_ref G L LUA_GLOBALSINDEX = Some Globals.
Proof. done. Qed.

(** An allocation fails only when no released handle and no [int] is left. *)
Lemma ref_alloc_None (T : RefTable) (v : Value) :
  ref_alloc T v = None <->
  free_list T = [] /\ ~ int_range (next_handle T).
Proof.
  unfold ref_alloc. destruct (free_list T) as [|h0 rest].
  - destruct (is_int (next_handle T)) eqn:E.
    + apply is_int_spec in E. split; [done|]. by intros [_ Hn].
    + split; [|done]. intros _. split; [done|].
      intros Hr. apply is_int_spec in Hr. congruence.
  - split; [done|]. by intros [? _].
Qed.

(** What [luaL_ref] comes to, case by case. *)
Lemma luaL_ref_cases (G G' : Shared) (L L' : lua_State) (t h : Z) :
  luaL_ref G L t = Some (h, G', L') ->
  exists v, stack_slot L (-1) = Some v /\ L' = pop L /\
    ((type_tag v = LUA_TNIL /\ h = LUA_REFNIL /\ G' = G) \/
     (type_tag v <> LUA_TNIL /\ h = LUA_NOREF /\ G' = G /\
      (table_ref G L t = None \/
       exists r, table_ref G L t = Some r /\
                 ref_alloc (get_table G r) v = None)) \/
     (type_tag v <> LUA_TNIL /\
      exists r T', table_ref G L t = Some r /\
        ref_alloc (get_table G r) v = Some (h, T') /\
        G' = set_table G r T')).
Proof.
  unfold luaL_ref. destruct (stack_slot L (-1)) as [v|]; simpl; [|done].
  intros Href. exists v. split; [done|].
  destruct (decide (type_tag v = LUA_TNIL)) as [Hnil|Hnil].
  { injection Href as <- <- <-. split; [done|]. by left. }
  destruct (table_ref G L t) as [r|]; simpl in Href;
    [|injection Href as <- <- <-; split; [done|]; right; left;
      repeat (split; [done|]); by left].
  destruct (ref_alloc (get_table G r) v) as [[h0 T0]|] eqn:Ealloc;
    simpl in Href;
    [|injection Href as <- <- <-; split; [done|]; right; left;
      repeat (split; [done|]); right; by exists r].
  injection Href as <- <- <-. split; [done|]. right; right.
  split; [done|]. by exists r, T0.
Qed.

Lemma ref_reachable_wf (G : Shared) : ref_reachable G -> wf_shared G.
Proof.
  induction 1 as [|G ups HG IH|G L t h G' L' HG IH Href
                  |G L t ref G' HG IH Hunref].
  - intros [| | |id]; apply wf_new_table.
  - intros r. specialize (IH r). by destruct r.
  - apply luaL_ref_cases in Href
      as (v & _ & _ & [(_ & _ & ->)|[(_ & _ & -> & _)
                       |(_ & r & T' & _ & Halloc & ->)]]);
      try done.
    apply wf_set_table; [done|].
    eapply ref_alloc_spec; [apply IH|done].
  - unfold luaL_unref in Hunref.
    destruct (table_ref G L t) as [r|]; simpl in Hunref; [|done].
    destruct (ref_release (get_table G r) ref) as [T'|] eqn:Hrel;
      simpl in Hunref; [|done].
    injection Hunref as <-. apply wf_set_table; [done|].
    eapply ref_release_spec; [apply IH|done].
Qed.

(** C6: the sentinels [LUA_REFNIL] and [LUA_NOREF] are two distinct negative
    integers.  In every state a host reaches, the handle of a live entry of
    any table (the Registry, the Environment, the Globals table or a table of
    the heap) is non-negative and below the number of handles the table ever
    issued, so it is neither sentinel.  [luaL_ref] returns either
    [LUA_REFNIL] (the value was nil, nothing is allocated), or [LUA_NOREF]
    (failure, nothing is allocated), or such a handle, which was not live
    before and under which the consumed value is live afterwards; at the
    three table pseudo-indices it issues a handle for every value that is
    not nil as long as a handle is left. *)
Theorem ref_handles_avoid_sentinels :
  LUA_REFNIL <> LUA_NOREF /\ LUA_REFNIL < 0 /\ LUA_NOREF < 0 /\
  (forall G r h,
     ref_reachable G -> is_Some (entries (get_table G r) !! h) ->
     0 <= h < next_handle (get_table G r) /\ h <= INT_MAX /\
     h <> LUA_REFNIL /\ h <> LUA_NOREF) /\
  (forall G L t h G' L',
     ref_reachable G -> luaL_ref G L t = Some (h, G', L') ->
     (h = LUA_REFNIL /\ G' = G) \/
     (h = LUA_NOREF /\ G' = G) \/
     (exists r v,
        table_ref G L t = Some r /\ stack_slot L (-1) = Some v /\
        entries (get_table G r) !! h = None /\
        entries (get_table G' r) !! h = Some v /\
        0 <= h < next_handle (get_table G' r) /\ h <= INT_MAX /\
        h <> LUA_REFNIL /\ h <> LUA_NOREF)) /\
  (forall G L t v,
     ref_reachable G ->
     t = LUA_REGISTRYINDEX \/ t = LUA_ENVIRONINDEX \/ t = LUA_GLOBALSINDEX ->
     stack_slot L (-1) = Some v -> type_tag v <> LUA_TNIL ->
     exists r,
       table_ref G L t = Some r /\
       ((free_list (get_table G r) = [] /\
         INT_MAX < next_handle (get_table G r) /\
         luaL_ref G L t = Some (LUA_NOREF, G, pop L)) \/
        (exists h G',
           luaL_ref G L t = Some (h, G', pop L) /\ 0 <= h /\
           entries (get_table G' r) !! h = Some v))).
Proof.
  assert (forall G r h,
     ref_reachable G -> is_Some (entries (get_table G r) !! h) ->
     0 <= h < next_handle (get_table G r) /\ h <= INT_MAX /\
     h <> LUA_REFNIL /\ h <> LUA_NOREF) as Hlive.
  { intros G r h HG Hh. apply ref_reachable_wf in HG.
    destruct (HG r) as (Hnext & Hentries & _).
    specialize (Hentries h Hh). int_arith. }
  split; [done|]. split; [done|]. split; [done|]. split; [exact Hlive|].
  split.
  - intros G L t h G' L' HG Href.
    pose proof (reach_ref _ _ _ _ _ _ HG Href) as HG'.
    apply luaL_ref_cases in Href
      as (v & Hv & _ & [(_ & -> & ->)|[(_ & -> & -> & _)
                        |(_ & r & T' & Hr & Halloc & ->)]]).
    + by left.
    + right; by left.
    + right; right. exists r, v.
      apply ref_alloc_spec in Halloc as (_ & Hnew & Hentry & _);
        [|by apply (ref_reachable_wf G)].
      assert (entries (get_table (set_table G r T') r) !! h = Some v) as Hin
        by (by rewrite get_set_table_eq).
      repeat (split; [done|]).
      apply Hlive; [exact HG'|by exists v].
  - intros G L t v HG Ht Hv Hnil.
    assert (exists r, table_ref G L t = Some r) as [r Hr].
    { destruct Ht as [->|[->| ->]]; by eexists. }
    exists r. split; [done|].
    pose proof (ref_reachable_wf G HG r) as Hwf.
    unfold luaL_ref. rewrite Hv; simpl.
    destruct (decide (type_tag v = LUA_TNIL)) as [|_]; [done|].
    rewrite Hr; simpl.
    destruct (ref_alloc (get_table G r) v) as [[h T']|] eqn:Halloc; simpl.
    + right. exists h, (set_table G r T'). split; [done|].
      apply ref_alloc_spec in Halloc as (HT' & _ & Hentry & _); [|done].
      rewrite get_set_table_eq. split; [|done].
      destruct HT' as (_ & Hentries & _).
      assert (0 <= h < next_handle T') by (apply Hentries; by exists v). lia.
    + left. apply ref_alloc_None in Halloc as [Hfree Hrange].
      destruct Hwf as (Hnext & _). split; [done|]. split; [|done].
      int_arith.
Qed.

Lemma ref_handles_avoid_sentinels_witness :
  exists G' L',
    luaL_ref new_shared (sample_call 1) LUA_GLOBALSINDEX = Some (0, G', L') /\
    0 <> LUA_REFNIL /\ 0 <> LUA_NOREF.
Proof.
  exists (set_table new_shared Globals
            {| entries := <[0 := VFunction 0]> ∅; free_list := [];
               next_handle := 1 |}), (pop (sample_call 1)).
  split; [reflexivity|].
  destruct (proj1 (proj2 (proj2 (proj2 (proj2 ref_handles_avoid_sentinels))))
              new_shared (sample_call 1) LUA_GLOBALSINDEX 0 _ _
              reach_newstate eq_refl)
    as [[Hnil _]|[[Hfail _]
        |(r & v & _ & _ & _ & _ & _ & _ & Hnil & Hfail)]].
  - discriminate Hnil.
  - discriminate Hfail.
  - split; [exact Hnil | exact Hfail].
Defined.

(** * Further properties of the header's macros *)

(** Arithmetic at a concrete depth, for the provider [depth_top]. *)
Ltac at_depth := unfold lua_gettop, depth_top; int_arith.

(** ** [abs_index] *)

Lemma abs_index_relative_inv `{StackTop State} (L : State) (i a : Z) :
  i <= 0 -> LUA_REGISTRYINDEX < i -> abs_index L i = Some a ->
  a = lua_gettop L + i + 1.
Proof.
  intros Hi Hr. rewrite abs_index_relative by done. unfold int_add.
  destruct (int_result (lua_gettop L + i)) as [t|] eqn:Et; simpl; [|done].
  apply int_result_inv in Et as [-> _]. intros Ha.
  by apply int_result_inv in Ha as [-> _].
Qed.

Lemma abs_index_fixed_inv `{StackTop State} (L : State) (i a : Z) :
  0 < i \/ i <= LUA_REGISTRYINDEX -> abs_index L i = Some a -> a = i.
Proof.
  intros [Hi|Hi] Ha.
  - rewrite abs_index_positive in Ha by done. congruence.
  - rewrite abs_index_pseudo in Ha by done. congruence.
Qed.

(** X1: on a stack whose depth is a non-negative [int], [abs_index] turns
    every valid stack index (1 to the depth, or -1 down to minus the depth
    while above the pseudo-indices) into a position between 1 and the depth,
    and that position is a fixed point of the macro: resolving it again gives
    the same position, at this depth and at any other. *)
Theorem abs_index_absolute `{StackTop State} (L : State) (i : Z) :
  0 <= lua_gettop L <= INT_MAX ->
  1 <= i <= lua_gettop L \/
    (- lua_gettop L <= i <= -1 /\ LUA_REGISTRYINDEX < i) ->
  exists a,
    abs_index L i = Some a /\ 1 <= a <= lua_gettop L /\
    abs_index L a = Some a /\
    forall (State' : Type) (gettop' : StackTop State') (L' : State'),
      abs_index L' a = Some a.
Proof.
  intros Htop [Hi|[Hi Hr]].
  - exists i. rewrite abs_index_positive by lia.
    split; [done|]. split; [done|]. split; [done|].
    intros State' gettop' L'. apply abs_index_positive. lia.
  - exists (lua_gettop L + i + 1).
    rewrite abs_index_stack_slot by (done || lia).
    split; [done|]. split; [lia|].
    split; [apply abs_index_positive; lia|].
    intros State' gettop' L'. apply abs_index_positive. lia.
Qed.

Lemma abs_index_absolute_witness :
  exists a,
    abs_index (H := depth_top) 5 (-2) = Some a /\
    abs_index (H := depth_top) 9 a = Some a.
Proof.
  destruct (abs_index_absolute (H := depth_top) 5 (-2))
    as (a & Ha & _ & _ & Hany); [at_depth | right; at_depth |].
  exists a. split; [exact Ha | exact (Hany Z depth_top 9)].
Defined.

(** X2: a top-relative index follows the top.  When the same negative stack
    index is resolved at two depths at which it is valid, the two positions
    differ by exactly the difference of the depths. *)
Theorem abs_index_follows_top `{StackTop State} (L L' : State) (i : Z) :
  0 <= lua_gettop L <= INT_MAX -> 0 <= lua_gettop L' <= INT_MAX ->
  - lua_gettop L <= i <= -1 -> - lua_gettop L' <= i ->
  LUA_REGISTRYINDEX < i ->
  exists a a',
    abs_index L i = Some a /\ abs_index L' i = Some a' /\
    a' - a = lua_gettop L' - lua_gettop L.
Proof.
  intros Htop Htop' Hi Hi' Hr.
  exists (lua_gettop L + i + 1), (lua_gettop L' + i + 1).
  rewrite !abs_index_stack_slot by (done || lia).
  split; [done|]. split; [done|]. lia.
Qed.

Lemma abs_index_follows_top_witness :
  exists a a',
    abs_index (H := depth_top) 3 (-1) = Some a /\
    abs_index (H := depth_top) 7 (-1) = Some a' /\ a' - a = 4.
Proof.
  destruct (abs_index_follows_top (H := depth_top) 3 7 (-1))
    as (a & a' & Ha & Ha' & Hdiff); [at_depth..|].
  exists a, a'. split; [exact Ha|]. split; [exact Ha' | exact Hdiff].
Defined.

(** X3: on a stack whose depth is a non-negative [int], the result of
    [abs_index] is a position between 1 and the depth exactly for the valid
    stack indices; index 0, an index beyond the depth and a pseudo-index never
    resolve to a live slot. *)
Theorem abs_index_live_slot_iff `{StackTop State} (L : State) (i : Z) :
  0 <= lua_gettop L <= INT_MAX ->
  (exists a, abs_index L i = Some a /\ 1 <= a <= lua_gettop L) <->
  (1 <= i <= lua_gettop L \/
   (- lua_gettop L <= i <= -1 /\ LUA_REGISTRYINDEX < i)).
Proof.
  intros Htop. split.
  - intros (a & Ha & Hlive).
    destruct (decide (0 < i \/ i <= LUA_REGISTRYINDEX)) as [Hfix|Hrel].
    + apply abs_index_fixed_inv in Ha as ->; [|done]. left. int_arith.
    + apply abs_index_relative_inv in Ha as ->; [|lia..]. right. lia.
  - intros [Hi|[Hi Hr]].
    + exists i. split; [apply abs_index_positive; lia | done].
    + exists (lua_gettop L + i + 1).
      split; [apply abs_index_stack_slot; (done || lia) | lia].
Qed.

Lemma abs_index_live_slot_iff_witness :
  (exists a, abs_index (H := depth_top) 5 (-5) = Some a /\ 1 <= a <= 5) /\
  ((exists a, abs_index (H := depth_top) 5 0 = Some a /\ 1 <= a <= 5) -> False).
Proof.
  split.
  - apply (abs_index_live_slot_iff (H := depth_top) 5 (-5)); [at_depth|].
    right. at_depth.
  - intros Hlive.
    apply (abs_index_live_slot_iff (H := depth_top) 5 0) in Hlive; at_depth.
Defined.

(** X4: on a stack of non-negative depth [abs_index] keeps the class of an
    index: its result is at or below [LUA_REGISTRYINDEX] exactly when the
    index is, so no stack index, valid or not, is turned into a pseudo-index. *)
Theorem abs_index_keeps_class `{StackTop State} (L : State) (i a : Z) :
  0 <= lua_gettop L ->
  abs_index L i = Some a ->
  (a <= LUA_REGISTRYINDEX <-> i <= LUA_REGISTRYINDEX).
Proof.
  intros Htop Ha.
  destruct (decide (0 < i \/ i <= LUA_REGISTRYINDEX)) as [Hfix|Hrel].
  - by apply abs_index_fixed_inv in Ha as ->.
  - apply abs_index_relative_inv in Ha as ->; [|lia..]. int_arith.
Qed.

Lemma abs_index_keeps_class_witness :
  abs_index (H := depth_top) 0 (-9999) = Some (-9998) /\
  (-9998 <= LUA_REGISTRYINDEX <-> -9999 <= LUA_REGISTRYINDEX).
Proof.
  split; [reflexivity|].
  apply (abs_index_keeps_class (H := depth_top) 0 (-9999) (-9998));
    [at_depth | reflexivity].
Defined.

(** X5: two valid stack indices resolve to the same position exactly when
    they are equal or are the positive and the negative name of one slot,
    which differ by the depth plus one. *)
Theorem abs_index_same_slot_iff `{StackTop State} (L : State) (i j : Z) :
  0 <= lua_gettop L <= INT_MAX ->
  1 <= i <= lua_gettop L \/
    (- lua_gettop L <= i <= -1 /\ LUA_REGISTRYINDEX < i) ->
  1 <= j <= lua_gettop L \/
    (- lua_gettop L <= j <= -1 /\ LUA_REGISTRYINDEX < j) ->
  (abs_index L i = abs_index L j <->
   i = j \/ i - j = lua_gettop L + 1 \/ j - i = lua_gettop L + 1).
Proof.
  intros Htop [Hi|[Hi Hri]] [Hj|[Hj Hrj]];
    rewrite ?(abs_index_positive L i), ?(abs_index_positive L j),
      ?(abs_index_stack_slot L i), ?(abs_index_stack_slot L j)
      by (done || lia);
    (split; [intros [= E]; lia | intros Hsame; f_equal; lia]).
Qed.

Lemma abs_index_same_slot_iff_witness :
  abs_index (H := depth_top) 5 2 = abs_index (H := depth_top) 5 (-4).
Proof.
  apply (abs_index_same_slot_iff (H := depth_top) 5 2 (-4));
    [at_depth | left; at_depth | right; at_depth | right; left; at_depth].
Defined.

(** X6: a live slot has a negative index only while that index stays above
    [LUA_REGISTRYINDEX].  The slot at position [a] is reached by the index
    [a - depth - 1] when this is above [LUA_REGISTRYINDEX]; otherwise, on a
    stack deeper than 9999, no index at or below 0 resolves to it, and its
    positive index is the only one. *)
Theorem abs_index_negative_reach `{StackTop State} (L : State) (a : Z) :
  0 <= lua_gettop L <= INT_MAX -> 1 <= a <= lua_gettop L ->
  (LUA_REGISTRYINDEX < a - lua_gettop L - 1 ->
   abs_index L (a - lua_gettop L - 1) = Some a) /\
  (a - lua_gettop L - 1 <= LUA_REGISTRYINDEX ->
   forall i, i <= 0 -> abs_index L i <> Some a).
Proof.
  intros Htop Ha. split.
  - intros Hr. rewrite abs_index_stack_slot by (done || lia). f_equal. lia.
  - intros Hdeep i Hi Hres.
    destruct (decide (i <= LUA_REGISTRYINDEX)) as [Hp|Hrel].
    + apply abs_index_fixed_inv in Hres; [|by right]. lia.
    + apply abs_index_relative_inv in Hres; lia.
Qed.

Lemma abs_index_negative_reach_witness :
  abs_index (H := depth_top) 12 (-12) = Some 1 /\
  (abs_index (H := depth_top) 20000 (-19999) = Some 2 -> False).
Proof.
  split.
  - apply (abs_index_negative_reach (H := depth_top) 12 1); at_depth.
  - apply (abs_index_negative_reach (H := depth_top) 20000 2); at_depth.
Defined.

(** X7: on a stack whose depth is a non-negative [int] the additions of
    [abs_index] overflow at one point only: the macro has a value for every
    index except index 0 on a stack of [INT_MAX] values. *)
Theorem abs_index_defined_iff `{StackTop State} (L : State) (i : Z) :
  0 <= lua_gettop L <= INT_MAX ->
  (is_Some (abs_index L i) <-> ~ (i = 0 /\ lua_gettop L = INT_MAX)).
Proof.
  intros Htop.
  destruct (decide (0 < i \/ i <= LUA_REGISTRYINDEX)) as [Hfix|Hrel].
  - assert (abs_index L i = Some i) as ->
      by (destruct Hfix; [by apply abs_index_positive|by apply abs_index_pseudo]).
    split; [intros _ [-> _]; int_arith | by eexists].
  - rewrite abs_index_relative by lia. unfold int_add.
    rewrite (int_result_Some (lua_gettop L + i)) by int_arith. simpl. split.
    + intros [a Ha] [-> Hmax]. apply int_result_inv in Ha as [_ Hrange].
      int_arith.
    + intros Hne. rewrite int_result_Some; [by eexists|].
      assert (i = 0 -> lua_gettop L <> INT_MAX) by tauto. int_arith.
Qed.

Lemma abs_index_defined_iff_witness :
  is_Some (abs_index (H := depth_top) 5 0) /\
  (is_Some (abs_index (H := depth_top) INT_MAX 0) -> False).
Proof.
  split.
  - apply (abs_index_defined_iff (H := depth_top) 5 0); at_depth.
  - intros Hdef.
    apply (abs_index_defined_iff (H := depth_top) INT_MAX 0) in Hdef;
      [apply Hdef; split; reflexivity | at_depth].
Defined.

(** ** [lua_upvalueindex] *)

(** X8: [lua_upvalueindex] is one-to-one and order-reversing: the upvalue
    number is recovered from the pseudo-index as [LUA_GLOBALSINDEX - p], two
    numbers give the same index only if they are equal, and a larger number
    gives a smaller index. *)
Theorem lua_upvalueindex_inverse (i j p q : Z) :
  lua_upvalueindex i = Some p -> lua_upvalueindex j = Some q ->
  LUA_GLOBALSINDEX - p = i /\ (p = q <-> i = j) /\ (q < p <-> i < j).
Proof.
  intros Hp Hq.
  apply lua_upvalueindex_inv in Hp as [-> _].
  apply lua_upvalueindex_inv in Hq as [-> _]. lia.
Qed.

Lemma lua_upvalueindex_inverse_witness :
  LUA_GLOBALSINDEX - (-10003) = 1 /\ (-10004 < -10003 <-> 1 < 2).
Proof.
  destruct (lua_upvalueindex_inverse 1 2 (-10003) (-10004) eq_refl eq_refl)
    as (Hinv & _ & Hord).
  split; [exact Hinv | exact Hord].
Defined.

(** X9: the pseudo-indices do not alias one another.  The index of an
    upvalue numbered from 1 lies strictly below [LUA_GLOBALSINDEX], which lies
    below [LUA_ENVIRONINDEX], which lies below [LUA_REGISTRYINDEX]; number 0
    is not an upvalue: the macro maps it to [LUA_GLOBALSINDEX] itself. *)
Theorem upvalue_index_no_alias (i p : Z) :
  1 <= i -> lua_upvalueindex i = Some p ->
  p < LUA_GLOBALSINDEX /\ LUA_GLOBALSINDEX < LUA_ENVIRONINDEX /\
  LUA_ENVIRONINDEX < LUA_REGISTRYINDEX /\
  lua_upvalueindex 0 = Some LUA_GLOBALSINDEX.
Proof.
  intros Hi Hp. apply lua_upvalueindex_inv in Hp as [-> _].
  split; [lia|]. split; [done|]. split; [done|]. reflexivity.
Qed.

Lemma upvalue_index_no_alias_witness :
  -10257 < LUA_GLOBALSINDEX /\ lua_upvalueindex 0 = Some LUA_GLOBALSINDEX.
Proof.
  destruct (upvalue_index_no_alias 255 (-10257)) as (Hlt & _ & _ & Hzero);
    [lia | reflexivity |].
  split; [exact Hlt | exact Hzero].
Defined.

(** X10: for an [int] argument the subtraction of [lua_upvalueindex] is
    representable exactly up to [LUA_GLOBALSINDEX - INT_MIN = 2147473646]:
    up to there the macro gives [LUA_GLOBALSINDEX - i], also for a negative
    [i], and above it overflows. *)
Theorem lua_upvalueindex_defined_iff (i : Z) :
  int_range i ->
  LUA_GLOBALSINDEX - INT_MIN = 2147473646 /\
  (i <= LUA_GLOBALSINDEX - INT_MIN ->
   lua_upvalueindex i = Some (LUA_GLOBALSINDEX - i)) /\
  (LUA_GLOBALSINDEX - INT_MIN < i -> lua_upvalueindex i = None).
Proof.
  intros Hi. split; [done|]. split.
  - intros Hle. apply int_result_Some. int_arith.
  - intros Hgt. unfold lua_upvalueindex, int_sub, int_result.
    destruct (is_int (LUA_GLOBALSINDEX - i)) eqn:E; [|done].
    apply is_int_spec in E. int_arith.
Qed.

Lemma lua_upvalueindex_defined_iff_witness :
  lua_upvalueindex INT_MIN = Some 2147473646 /\
  lua_upvalueindex INT_MAX = None.
Proof.
  split.
  - apply (lua_upvalueindex_defined_iff INT_MIN); int_arith.
  - apply (lua_upvalueindex_defined_iff INT_MAX); int_arith.
Defined.
